(** * Serial <-> TCP tunnel (serial_tcp_tunel.py): model and properties

    The tunnel relays bytes between one serial device and one TCP client.
    This file embeds the relay core of [serial_tcp_tunel.py]:

    - the Telnet IAC filter, written inline in [handle_tcp_client]
      (the [while i < len(data)] loop);
    - the global variables [tcp_socket], [client_address], [is_running]
      and the effects of the three threads on them: the listener loop of
      [start_server], the session thread [handle_tcp_client], and the
      pump thread [serial_to_tcp];
    - [start_server] as a whole, with its start-up failures and its
      [finally] block;
    - the console functions [listar_portas_com], [exibir_menu_portas],
      [configurar_tcp] and the [__main__] block, over the lines that
      [input()] returns, with Python's [int], [str.strip] and [str.lower]
      left as parameters.

    Bytes are [Byte.byte]; buffers are [list byte].  What the operating
    system hands to the program (the result of [recv], [sendall],
    [ser.read], [ser.write], [accept]) is an explicit event, so every
    function below is executable. *)

From Stdlib Require Import Init.Byte.
From Stdlib Require Strings.Byte.
From stdpp Require Import base decidable option numbers strings list sorting.

#[global] Instance byte_eq_dec : EqDecision byte := Strings.Byte.byte_eq_dec.

(** ** The IAC filter *)

Module Iac.

(** [0xFF], Telnet's Interpret-As-Command. *)
Definition IAC : byte := xff.

(** The loop [while i < len(data)] of [handle_tcp_client]: [i] is the
    index, [filtered_data] the bytearray built so far.  Each iteration
    consumes one unit of [fuel]; [None] means the fuel ran out (or
    [data[i]] was out of range, which the guard excludes). *)
Fixpoint iac_loop (fuel : nat) (data : list byte) (i : nat)
    (filtered_data : list byte) : option (list byte) :=
  if decide (i < length data) then
    match fuel with
    | O => None
    | S fuel' =>
        match data !! i with
        | Some byte =>
            if decide (byte = IAC)
            then iac_loop fuel' data (i + 3) filtered_data
            else iac_loop fuel' data (i + 1) (filtered_data ++ [byte])
        | None => None
        end
    end
  else Some filtered_data.

(** [filtered_data = bytearray(); i = 0; while ...; bytes(filtered_data)].
    The index grows at every iteration, so [length data] iterations are
    enough ([iac_loop_total] below). *)
Definition iac_filter (data : list byte) : list byte :=
  default [] (iac_loop (length data) data 0 []).

(** The same scan by recursion on the buffer: [skip] counts the bytes
    still to be jumped over after a marker. *)
Fixpoint scan (skip : nat) (data : list byte) : list byte :=
  match data with
  | [] => []
  | b :: rest =>
      match skip with
      | S k => scan k rest
      | O => if decide (b = IAC) then scan 2 rest else b :: scan 0 rest
      end
  end.

(** The buffer as the filter reads it, left to right: a plain byte, or a
    marker with its command and option bytes. *)
Inductive segment :=
  | Plain (b : byte)
  | Command (cmd opt : byte).

Definition wire (s : segment) : list byte :=
  match s with
  | Plain b => [b]
  | Command cmd opt => [IAC; cmd; opt]
  end.

Definition kept (s : segment) : list byte :=
  match s with
  | Plain b => [b]
  | Command _ _ => []
  end.

Definition plain_ok (s : segment) : Prop :=
  match s with
  | Plain b => b ≠ IAC
  | Command _ _ => True
  end.

(** A marker too close to the end of the buffer: fewer than two bytes
    follow it. *)
Definition truncated (tail : list byte) : Prop :=
  ∃ rest, tail = IAC :: rest ∧ length rest < 2.

End Iac.

(** ** The tunnel: shared variables, threads and their steps *)

Module Tunnel.
Import Iac.

(** A connected socket object, by identity, and the peer address that
    [accept] returns with it. *)
Definition sock : Type := nat.
Definition address : Type := (string * N)%type.

(** The exception classes the threads meet.  [socket.error] is [OSError];
    all four derive from [Exception]. *)
Inductive exn := SocketError | SerialException | AttributeError | TypeError.

(** What a thread function ends with. *)
Inductive outcome := Returned | Uncaught (e : exn).

(** Observable effects, in the order they happen. *)
Inductive io :=
  | SerialRead (data : list byte)            (* ser.read(...) returned data *)
  | TcpSend (c : sock) (data : list byte)    (* c.sendall(data) succeeded *)
  | TcpRecv (c : sock) (data : list byte)    (* c.recv(4096) returned data *)
  | SerialWrite (data : list byte)           (* ser.write(data) succeeded *)
  | Close (c : sock)                         (* c.close() *)
  | CloseSerial                              (* ser.close() *)
  | CloseServer.                             (* server_socket.close() *)

(** The module-level variables [tcp_socket], [client_address] and
    [is_running], with the effects so far. *)
Record world := World {
  tcp_socket : option sock;
  client_address : option address;
  is_running : bool;
  trace : list io
}.

Definition emit (es : list io) (w : world) : world :=
  World (tcp_socket w) (client_address w) (is_running w) (trace w ++ es).

Definition tcp_sent (c : sock) (tr : list io) : list byte :=
  mjoin (omap (λ e, match e with
                    | TcpSend c' d => if decide (c' = c) then Some d else None
                    | _ => None end) tr).
Definition serial_written (tr : list io) : list byte :=
  mjoin (omap (λ e, match e with SerialWrite d => Some d | _ => None end) tr).

(** *** The [finally] block of [handle_tcp_client]

    [tcp_socket.close(); tcp_socket = None; client_address = None], on
    the global [tcp_socket].  When it is [None] the attribute access
    raises [AttributeError] and the assignments are not reached. *)
Definition release (w : world) : world * outcome :=
  match tcp_socket w with
  | Some c => (World None None (is_running w) (trace w ++ [Close c]), Returned)
  | None => (w, Uncaught AttributeError)
  end.

(** *** The session thread, [handle_tcp_client(conn, addr)] *)

Inductive session_pc :=
  | Starting                 (* thread created, line 55 not yet run *)
  | Receiving                (* in the [while is_running] loop *)
  | Ended (o : outcome).

Record session := Session {
  conn : sock;
  addr : address;
  pc : session_pc;
  data_to_write : list byte
}.

(** One [conn.recv(4096)]: an exception, or a buffer (empty when the peer
    has shut down); [written] tells whether the [ser.write(data)] that
    follows a non-empty buffer succeeds. *)
Inductive tcp_event :=
  | RecvFails
  | Recv (data : list byte) (written : bool).

(** Lines 54-63: the globals are assigned, the pump thread is started. *)
Definition session_start (w : world) (t : session) : world * session :=
  match pc t with
  | Starting =>
      (World (Some (conn t)) (Some (addr t)) (is_running w) (trace w),
       Session (conn t) (addr t) Receiving (data_to_write t))
  | _ => (w, t)
  end.

(** Leaving the loop, by [break] or by a caught exception: every
    [except] clause only prints, then the [finally] block runs. *)
Definition session_exit (w : world) (t : session) : world * session :=
  let '(w', o) := release w in
  (w', Session (conn t) (addr t) (Ended o) (data_to_write t)).

(** One iteration of the loop at lines 66-88. *)
Definition session_recv (w : world) (t : session) (e : tcp_event)
    : world * session :=
  match pc t with
  | Receiving =>
      if is_running w then
        match e with
        | RecvFails => session_exit w t
        | Recv data written =>
            let w1 := emit [TcpRecv (conn t) data] w in
            if decide (data = []) then session_exit w1 t
            else
              let t1 := Session (conn t) (addr t) Receiving (iac_filter data) in
              if written then (emit [SerialWrite data] w1, t1)
              else session_exit w1 t1
        end
      else session_exit w t
  | _ => (w, t)
  end.

(** The thread run on its own over the results of its [recv] calls. *)
Definition handle_tcp_client (w : world) (c : sock) (a : address)
    (evs : list tcp_event) : world * session :=
  foldl (λ st e, session_recv st.1 st.2 e)
        (session_start w (Session c a Starting [])) evs.

(** *** The pump thread, [serial_to_tcp()] *)

Inductive pump_pc :=
  | Pumping
  | Finished (o : outcome).

(** One poll of the serial port: nothing waiting; [ser.in_waiting] or
    [ser.read] raises; or [ser.read] returns [data], and [sent] tells
    whether the [sendall] that follows non-empty data succeeds. *)
Inductive serial_event :=
  | SerialIdle
  | SerialFails
  | SerialData (data : list byte) (sent : bool).

(** How the body of a loop iteration ends. *)
Inductive flow := Next | Break | Raise (e : exn).

(** Lines 25-41, entered with the loop condition true. *)
Definition serial_to_tcp_body (w : world) (e : serial_event) : world * flow :=
  match e with
  | SerialIdle => (w, Next)
  | SerialFails => (w, Raise SerialException)
  | SerialData data sent =>
      let w1 := emit [SerialRead data] w in
      if decide (data = []) then (w1, Next)
      else
        match tcp_socket w with
        | None => (w1, Raise AttributeError)
        | Some c =>
            if sent then
              let w2 := emit [TcpSend c data] w1 in
              match client_address w with
              | Some _ => (w2, Next)
              | None => (w2, Raise TypeError)   (* client_address[0] *)
              end
            else (w1, Break)                    (* except socket.error *)
        end
  end.

(** The [except] clauses of [serial_to_tcp]: [serial.SerialException],
    then [Exception], which the other classes derive from. *)
Definition serial_to_tcp_except (e : exn) : outcome :=
  match e with
  | SerialException => Returned
  | SocketError | AttributeError | TypeError => Returned
  end.

(** One turn of [while is_running and tcp_socket]. *)
Definition pump_step (w : world) (p : pump_pc) (e : serial_event)
    : world * pump_pc :=
  match p with
  | Pumping =>
      if is_running w && bool_decide (is_Some (tcp_socket w)) then
        let '(w', f) := serial_to_tcp_body w e in
        match f with
        | Next => (w', Pumping)
        | Break => (w', Finished Returned)
        | Raise x => (w', Finished (serial_to_tcp_except x))
        end
      else (w, Finished Returned)
  | Finished _ => (w, p)
  end.

(** The thread run on its own over the results of its serial polls. *)
Definition serial_to_tcp (w : world) (evs : list serial_event)
    : world * pump_pc :=
  foldl (λ st e, pump_step st.1 st.2 e) (w, Pumping) evs.

(** *** The accept loop of [start_server] *)

Inductive accept_event :=
  | AcceptOk (c : sock) (a : address)
  | AcceptTimeout
  | AcceptError.

Inductive verdict :=
  | Spawn (c : sock) (a : address)   (* a session thread is started *)
  | Rejected                         (* the new connection is closed *)
  | Again                            (* [continue] *)
  | Stopped.                         (* the loop is left, [finally] runs *)

(** The [finally] block of [start_server]. *)
Definition shutdown (w : world) : world :=
  World (tcp_socket w) (client_address w) false
        (trace w ++ [CloseSerial; CloseServer]).

(** One turn of [while is_running] at lines 210-233. *)
Definition listener_step (w : world) (e : accept_event) : world * verdict :=
  if is_running w then
    match e with
    | AcceptOk c a =>
        match tcp_socket w with
        | Some _ => (emit [Close c] w, Rejected)
        | None => (w, Spawn c a)
        end
    | AcceptTimeout => (w, Again)
    | AcceptError => (shutdown w, Stopped)
    end
  else (shutdown w, Stopped).

(** *** The threads together

    The listener, the session threads and the pump threads run
    concurrently on the shared variables.  A schedule is a list of
    actions, each one turn of one thread. *)

Record system := System {
  shared : world;
  sessions : list session;     (* the [TCPHandler] threads, in creation order *)
  pumps : list pump_pc;        (* the [SerialToTCP] threads, in creation order *)
  listening : bool             (* the accept loop has not been left *)
}.

Inductive action :=
  | Listen (e : accept_event)            (* the listener's [accept] returns *)
  | Start (k : nat)                      (* session thread [k] runs lines 54-63 *)
  | Receive (k : nat) (e : tcp_event)    (* session thread [k]: one [recv] *)
  | Poll (k : nat) (e : serial_event).   (* pump thread [k]: one loop turn *)

Definition step (s : system) (a : action) : system :=
  match a with
  | Listen e =>
      if listening s then
        let '(w, v) := listener_step (shared s) e in
        match v with
        | Spawn c a' =>
            System w (sessions s ++ [Session c a' Starting []]) (pumps s) true
        | Rejected | Again => System w (sessions s) (pumps s) true
        | Stopped => System w (sessions s) (pumps s) false
        end
      else s
  | Start k =>
      match sessions s !! k with
      | Some t =>
          match pc t with
          | Starting =>
              let '(w, t') := session_start (shared s) t in
              System w (<[k:=t']> (sessions s)) (pumps s ++ [Pumping])
                     (listening s)
          | _ => s
          end
      | None => s
      end
  | Receive k e =>
      match sessions s !! k with
      | Some t =>
          let '(w, t') := session_recv (shared s) t e in
          System w (<[k:=t']> (sessions s)) (pumps s) (listening s)
      | None => s
      end
  | Poll k e =>
      match pumps s !! k with
      | Some p =>
          let '(w, p') := pump_step (shared s) p e in
          System w (sessions s) (<[k:=p']> (pumps s)) (listening s)
      | None => s
      end
  end.

Definition run (s : system) (schedule : list action) : system :=
  foldl step s schedule.

(** The program after [start_server] has opened the port and bound the
    socket: nobody connected, no thread but the listener. *)
Definition boot : system :=
  System (World None None true []) [] [] true.

(** A session whose thread has been created and has not ended. *)
Definition alive (t : session) : bool :=
  match pc t with
  | Ended _ => false
  | _ => true
  end.

Definition active_sessions (s : system) : list session :=
  filter (λ t, alive t = true) (sessions s).

(** *** Vocabulary for the properties *)

(** The three module-level variables, without the effects. *)
Definition globals (w : world) : option sock * option address * bool :=
  (tcp_socket w, client_address w, is_running w).

(** A pump thread that has not ended with an exception. *)
Definition quiet (p : pump_pc) : Prop :=
  p = Pumping ∨ p = Finished Returned.

(** A turn of the pump that meets an error: the serial port raises, or
    [sendall] of the bytes just read raises. *)
Definition pump_error (e : serial_event) : Prop :=
  e = SerialFails ∨ ∃ data, data ≠ [] ∧ e = SerialData data false.

(** The three ways out of the receive loop: [recv] raises, [recv]
    returns no byte, or the serial write raises. *)
Definition leaves (e : tcp_event) : Prop :=
  e = RecvFails ∨ (∃ written, e = Recv [] written)
  ∨ (∃ data, data ≠ [] ∧ e = Recv data false).

End Tunnel.

(** ** The filter over a stream cut into buffers *)

Module IacStream.
Import Iac.

(** The value of the index [i] when the loop [while i < len(data)] is
    left: [len(data)], or up to two more when the last marker is too
    close to the end and [i += 3] jumps past it. *)
Fixpoint iac_loop_end (fuel : nat) (data : list byte) (i : nat) : option nat :=
  if decide (i < length data) then
    match fuel with
    | O => None
    | S fuel' =>
        match data !! i with
        | Some byte =>
            if decide (byte = IAC)
            then iac_loop_end fuel' data (i + 3)
            else iac_loop_end fuel' data (i + 1)
        | None => None
        end
    end
  else Some i.

(** How far past the end of the buffer the index stops: the number of
    bytes of a group that the buffer does not hold. *)
Definition overrun (data : list byte) : nat :=
  default 0 (iac_loop_end (length data) data 0) - length data.

(** The same count by recursion on the buffer, next to [scan]. *)
Fixpoint over (skip : nat) (data : list byte) : nat :=
  match data with
  | [] => skip
  | b :: rest =>
      match skip with
      | S k => over k rest
      | O => if decide (b = IAC) then over 2 rest else over 0 rest
      end
  end.

(** The number of 0xFF bytes of a buffer. *)
Definition markers (data : list byte) : nat :=
  length (filter (λ b, b = IAC) data).

End IacStream.

(** ** [start_server] as a whole, and orderly schedules *)

Module Server.
Import Tunnel.

(** What the accept loop meets at one turn: the outcome of [accept], or
    Ctrl+C. *)
Inductive server_event :=
  | Accepting (e : accept_event)
  | Interrupt.

Inductive server_status :=
  | OpenFailed      (* [serial.Serial(...)] raised: [return] at line 191 *)
  | BindFailed      (* [bind]/[listen] raised: [ser.close(); return] *)
  | Serving         (* in the accept loop, waiting in [accept] *)
  | ShutDown.       (* the loop was left and the [finally] block has run *)

(** The loop at lines 209-247 run on its own: the world, the connections
    handed to a new [TCPHandler] thread so far, and whether the loop was
    left. *)
Fixpoint accept_loop (w : world) (spawned : list (sock * address))
    (evs : list server_event) : world * list (sock * address) * bool :=
  match evs with
  | [] => if is_running w then (w, spawned, false)
          else (shutdown w, spawned, true)
  | Interrupt :: _ => (shutdown w, spawned, true)
  | Accepting e :: rest =>
      let '(w', v) := listener_step w e in
      match v with
      | Spawn c a => accept_loop w' (spawned ++ [(c, a)]) rest
      | Rejected | Again => accept_loop w' spawned rest
      | Stopped => (w', spawned, true)
      end
  end.

(** [start_server(serial_port, tcp_port)]: [serial_opens] and [binds]
    tell whether [serial.Serial(...)] and [bind]/[listen] succeed. *)
Definition start_server (w : world) (serial_opens binds : bool)
    (evs : list server_event)
    : world * list (sock * address) * server_status :=
  if serial_opens then
    if binds then
      let '(w', spawned, gone) := accept_loop w [] evs in
      (w', spawned, if gone then ShutDown else Serving)
    else (emit [CloseSerial] w, [], BindFailed)
  else (w, [], OpenFailed).

(** A schedule in which a new session thread runs its first statements
    (lines 54-63) before anything else happens: each turn of the listener
    is followed at once by the start of the thread it may have created. *)
Definition prompt_step (s : system) (a : action) : system :=
  match a with
  | Listen e => step (step s (Listen e)) (Start (length (sessions s)))
  | _ => step s a
  end.

Definition prompt_run (s : system) (schedule : list action) : system :=
  foldl prompt_step s schedule.

(** What each thread may do to the outside: the session thread for
    connection [c], and the pump thread while the slot holds [slot]. *)
Definition session_io (c : sock) (e : io) : Prop :=
  match e with
  | TcpRecv c' _ => c' = c
  | SerialWrite d => d ≠ []
  | Close c' => c' = c
  | _ => False
  end.

Definition pump_io (slot : option sock) (e : io) : Prop :=
  match e with
  | SerialRead _ => True
  | TcpSend c d => slot = Some c ∧ d ≠ []
  | _ => False
  end.

(** Where the session thread stands after some receives: in its loop
    with the slot holding its connection, which it has not closed; or
    returned, with the slot cleared and its connection closed last. *)
Definition session_standing (c : sock) (a : address) (w : world)
    (t : session) (tr : list io) : Prop :=
  (pc t = Receiving ∧ tcp_socket w = Some c ∧ client_address w = Some a
   ∧ Close c ∉ tr)
  ∨ (pc t = Ended Returned ∧ tcp_socket w = None ∧ client_address w = None
     ∧ last tr = Some (Close c)).


(** One session at a time: every session thread is in its receive loop
    or has returned normally, and a thread in its receive loop is the
    only one and owns the slot. *)
Definition one_at_a_time (slot : option sock) (ts : list session) : Prop :=
  ∀ j t, ts !! j = Some t →
    (pc t = Receiving ∨ pc t = Ended Returned)
    ∧ (pc t = Receiving →
       slot = Some (conn t)
       ∧ ∀ j' t', ts !! j' = Some t' → pc t' = Receiving → j' = j).

End Server.

(** ** The console: port menu, TCP port question, program entry *)

Module Console.

(** An entry of [serial.tools.list_ports.comports()]: the device name
    and the description, which may be missing or empty. *)
Record port := Port {
  device : string;
  description : option string
}.

(** What [input()] gives: a line, or Ctrl+C ([KeyboardInterrupt]), or
    the end of standard input ([EOFError]). *)
Inductive key :=
  | Typed (s : string)
  | CtrlC
  | EndOfInput.

Inductive raised := KeyboardInterrupt | EOFError | IndexError.

(** How a console function ends: it returns [x] with the keys it has not
    read, or raises, or is still waiting in [input()] when the keys run
    out. *)
Inductive reply (A : Type) :=
  | Returns (x : A) (rest : list key)
  | Raises (e : raised)
  | Blocked.
Arguments Returns {A} x rest.
Arguments Raises {A} e.
Arguments Blocked {A}.

Definition TCP_PORT : Z := 5558.

(** [sorted(portas, key=lambda p: p.device)].  Python's [sorted] is
    stable and compares the keys, here strings, code point by code point;
    sorting by insertion, each port going before the first one whose
    device is not smaller, gives the same list. *)
Fixpoint insert_port (p : port) (l : list port) : list port :=
  match l with
  | [] => [p]
  | q :: rest =>
      if decide (String.le (device p) (device q)) then p :: q :: rest
      else q :: insert_port p rest
  end.

Definition listar_portas_com (comports : list port) : list port :=
  foldr insert_port [] comports.



Section Builtins.

(** Python's [int(str)] ([None] for [ValueError]), [str.strip] and
    [str.lower], whatever they do on each string. *)
Variable int : string → option Z.
Variable strip lower : string → string.

(** The [while True] loop of [exibir_menu_portas]. *)
Fixpoint menu_loop (portas : list port) (keys : list key)
    : reply (option string) :=
  match keys with
  | [] => Blocked
  | CtrlC :: rest => Returns None rest
  | EndOfInput :: _ => Raises EOFError
  | Typed escolha :: rest =>
      if decide (escolha = "0") then Returns None rest
      else
        match int escolha with
        | None => menu_loop portas rest                (* except ValueError *)
        | Some n =>
            let idx := (n - 1)%Z in
            if decide (0 ≤ idx < Z.of_nat (length portas))%Z then
              match portas !! Z.to_nat idx with
              | Some porta => Returns (Some (device porta)) rest
              | None => Raises IndexError
              end
            else menu_loop portas rest
        end
  end.

(** [exibir_menu_portas()], on the list that [comports()] returns. *)
Definition exibir_menu_portas (comports : list port) (keys : list key)
    : reply (option string) :=
  let portas := listar_portas_com comports in
  if decide (portas = []) then Returns None keys
  else menu_loop portas keys.

(** The [while True] loop of [configurar_tcp]. *)
Fixpoint port_loop (keys : list key) : reply Z :=
  match keys with
  | [] => Blocked
  | CtrlC :: rest => Returns TCP_PORT rest
  | EndOfInput :: _ => Raises EOFError
  | Typed line :: rest =>
      match int (strip line) with
      | None => port_loop rest                         (* except ValueError *)
      | Some porta_tcp =>
          if decide (1024 ≤ porta_tcp ≤ 65535)%Z then Returns porta_tcp rest
          else port_loop rest
      end
  end.

(** [configurar_tcp()]: the first [input()] is outside any [try]. *)
Definition configurar_tcp (keys : list key) : reply Z :=
  match keys with
  | [] => Blocked
  | CtrlC :: _ => Raises KeyboardInterrupt
  | EndOfInput :: _ => Raises EOFError
  | Typed line :: rest =>
      let usar_padrao := lower (strip line) in
      if decide (usar_padrao ∈ ["n"; "nao"; "não"]) then port_loop rest
      else Returns TCP_PORT rest
  end.

(** How the [__main__] block ends, up to the call of [start_server]. *)
Inductive launch :=
  | Started (serial_port : string) (tcp_port : Z) (rest : list key)
  | Exit0                      (* [sys.exit(0)] *)
  | Crashed (e : raised)
  | Waiting.

Definition main (comports : list port) (keys : list key) : launch :=
  match exibir_menu_portas comports keys with
  | Returns None _ => Exit0
  | Returns (Some porta_com) rest =>
      if decide (porta_com = "") then Exit0          (* [if not porta_com] *)
      else
        match configurar_tcp rest with
        | Returns porta_tcp rest' =>
            match rest' with                         (* "Pressione ENTER" *)
            | [] => Waiting
            | Typed _ :: rest'' => Started porta_com porta_tcp rest''
            | CtrlC :: _ => Crashed KeyboardInterrupt
            | EndOfInput :: _ => Crashed EOFError
            end
        | Raises e => Crashed e
        | Blocked => Waiting
        end
  | Raises e => Crashed e
  | Blocked => Waiting
  end.



End Builtins.

(** For examples: [int] on a plain string of decimal digits, where it
    agrees with Python's. *)
Fixpoint digits (acc : Z) (s : string) : option Z :=
  match s with
  | EmptyString => Some acc
  | String a rest =>
      match Ascii.is_nat a with
      | Some d => digits (10 * acc + Z.of_nat d) rest
      | None => None
      end
  end.

Definition decimal (s : string) : option Z :=
  if decide (s = "") then None else digits 0 s.

End Console.

(** ** Properties of the IAC filter *)

Module IacFacts.
Import Iac.

(** *** The loop and the scan agree *)

Lemma scan_drop k data : scan k data = scan 0 (drop k data).
Proof.
  revert k. induction data as [|b rest IH]; intros [|k]; simpl; done.
Qed.

Lemma iac_loop_scan fuel : ∀ data i acc,
  length data - i ≤ fuel →
  iac_loop fuel data i acc = Some (acc ++ scan 0 (drop i data)).
Proof.
  induction fuel as [|fuel IH]; intros data i acc Hfuel.
  - simpl. case_decide; [lia|].
    rewrite drop_ge; [|lia]. by rewrite app_nil_r.
  - simpl. case_decide as Hi.
    + destruct (lookup_lt_is_Some_2 data i Hi) as [b Hb].
      rewrite Hb. rewrite (drop_S data b i Hb). simpl.
      case_decide as Hm.
      * rewrite IH; [|lia]. rewrite (scan_drop 2), drop_drop.
        by replace (i + 3) with (S i + 2) by lia.
      * rewrite IH; [|lia]. rewrite <- app_assoc. simpl.
        by replace (i + 1) with (S i) by lia.
    + rewrite drop_ge; [|lia]. by rewrite app_nil_r.
Qed.

(** The loop returns: [length data] iterations suffice. *)
Lemma iac_loop_total data :
  iac_loop (length data) data 0 [] = Some (scan 0 data).
Proof. rewrite iac_loop_scan; [done | lia]. Qed.

Lemma iac_filter_scan data : iac_filter data = scan 0 data.
Proof. unfold iac_filter. by rewrite iac_loop_total. Qed.


(** *** Segments *)

Lemma scan_segments segs : ∀ rest,
  Forall plain_ok segs →
  scan 0 ((segs ≫= wire) ++ rest) = (segs ≫= kept) ++ scan 0 rest.
Proof.
  induction segs as [|[b|cmd opt] segs IH]; intros rest Hok; [done| |].
  - apply Forall_cons in Hok as [Hb Hok]. simpl in Hb |- *.
    case_decide; [done|]. f_equal. by apply IH.
  - apply Forall_cons in Hok as [_ Hok]. simpl. by apply IH.
Qed.

Lemma scan_truncated tail : truncated tail → scan 0 tail = [].
Proof.
  intros (rest & -> & Hlen). simpl.
  destruct rest as [|c [|o rest]]; simpl in *; [done | done | lia].
Qed.

Lemma scan_tail tail : tail = [] ∨ truncated tail → scan 0 tail = [].
Proof. intros [-> | Ht]; [done | by apply scan_truncated]. Qed.

(** Every buffer reads as segments, then possibly a truncated marker. *)
Lemma segments_cover_aux n : ∀ data,
  length data ≤ n →
  ∃ segs tail, Forall plain_ok segs ∧ (tail = [] ∨ truncated tail) ∧
               data = (segs ≫= wire) ++ tail.
Proof.
  induction n as [|n IH]; intros data Hn.
  - destruct data; [|simpl in Hn; lia]. exists [], []. auto.
  - destruct data as [|b data]; [exists [], []; auto|].
    destruct (decide (b = IAC)) as [->|Hb].
    + destruct data as [|cmd [|opt data]].
      * exists [], [IAC]. split; [done|]. split; [|done].
        right. exists []. simpl. split; [done | lia].
      * exists [], [IAC; cmd]. split; [done|]. split; [|done].
        right. exists [cmd]. simpl. split; [done | lia].
      * destruct (IH data) as (segs & tail & Hok & Ht & ->);
          [simpl in Hn; lia|].
        exists (Command cmd opt :: segs), tail.
        split; [by constructor|]. by split.
    + destruct (IH data) as (segs & tail & Hok & Ht & ->); [simpl in Hn; lia|].
      exists (Plain b :: segs), tail.
      split; [by constructor|]. by split.
Qed.

Lemma segments_cover data :
  ∃ segs tail, Forall plain_ok segs ∧ (tail = [] ∨ truncated tail) ∧
               data = (segs ≫= wire) ++ tail.
Proof. by apply (segments_cover_aux (length data)). Qed.

(** *** Subsequence and absence of the marker *)

Lemma scan_sublist data : ∀ k, scan k data `sublist_of` data.
Proof.
  induction data as [|b rest IH]; intros k; simpl; [done|].
  destruct k as [|k].
  - case_decide.
    + by apply sublist_cons.
    + by apply sublist_skip.
  - by apply sublist_cons.
Qed.

Lemma scan_no_marker data : ∀ k, IAC ∉ scan k data.
Proof.
  induction data as [|b rest IH]; intros k; simpl.
  - apply not_elem_of_nil.
  - destruct k as [|k]; [|done].
    case_decide; [done|].
    apply not_elem_of_cons. split; [congruence | done].
Qed.

(** [C1] For every buffer, read left to right as plain bytes (none of
    them 0xFF) and groups of a 0xFF marker with its command and option
    bytes, the filter returns the plain bytes, unchanged and in order, and
    nothing of the groups; a last group cut short by the end of the buffer
    is removed as far as it goes.  Every buffer reads that way, and
    [41 FF FB 01 42] filters to [41 42]. *)
Theorem iac_filter_removes_groups :
  (∀ segs tail,
     Forall plain_ok segs → tail = [] ∨ truncated tail →
     iac_filter ((segs ≫= wire) ++ tail) = segs ≫= kept)
  ∧ (∀ data, ∃ segs tail,
       Forall plain_ok segs ∧ (tail = [] ∨ truncated tail) ∧
       data = (segs ≫= wire) ++ tail)
  ∧ iac_filter [x41; xff; xfb; x01; x42] = [x41; x42].
Proof.
  split; [|split].
  - intros segs tail Hok Ht.
    rewrite iac_filter_scan, scan_segments by done.
    rewrite scan_tail by done. apply app_nil_r.
  - apply segments_cover.
  - reflexivity.
Qed.

Lemma iac_filter_removes_groups_witness :
  iac_filter (([Plain x41; Command xfb x01; Plain x42] ≫= wire) ++ [])
  = [Plain x41; Command xfb x01; Plain x42] ≫= kept.
Proof.
  apply (proj1 iac_filter_removes_groups).
  - repeat constructor; simpl; discriminate.
  - by left.
Defined.

(** [C10] The filter's output is a subsequence of its input, is no
    longer than it, and holds no 0xFF byte. *)
Theorem iac_filter_subsequence_without_marker data :
  iac_filter data `sublist_of` data
  ∧ length (iac_filter data) ≤ length data
  ∧ IAC ∉ iac_filter data.
Proof.
  rewrite iac_filter_scan. split; [|split].
  - apply scan_sublist.
  - apply sublist_length, scan_sublist.
  - apply scan_no_marker.
Qed.

End IacFacts.

(** ** Properties of the tunnel *)

Module TunnelFacts.
Import Iac IacFacts Tunnel.

(** *** Effects add up *)




Lemma serial_written_app tr tr' :
  serial_written (tr ++ tr') = serial_written tr ++ serial_written tr'.
Proof. unfold serial_written. by rewrite omap_app, join_app. Qed.

(** *** The session thread, one receive at a time *)

Lemma session_recv_delivered w t data :
  pc t = Receiving → is_running w = true → data ≠ [] →
  session_recv w t (Recv data true)
  = (emit [SerialWrite data] (emit [TcpRecv (conn t) data] w),
     Session (conn t) (addr t) Receiving (iac_filter data)).
Proof.
  intros Hpc Hrun Hdata. unfold session_recv. rewrite Hpc, Hrun.
  by case_decide.
Qed.

(** [C2] When [recv] returns a non-empty buffer and the serial write
    succeeds, the bytes written to the serial port are that buffer as it
    was received, markers included; the filtered copy is kept in
    [data_to_write] and is not what is written.  So for [FF FB 03 06] the
    four bytes are written while the filtered copy is [06]. *)
Theorem raw_bytes_written_to_serial w t data :
  pc t = Receiving → is_running w = true → data ≠ [] →
  let r := session_recv w t (Recv data true) in
  trace r.1 = trace w ++ [TcpRecv (conn t) data; SerialWrite data]
  ∧ serial_written (trace r.1) = serial_written (trace w) ++ data
  ∧ data_to_write r.2 = iac_filter data
  ∧ pc r.2 = Receiving.
Proof.
  intros Hpc Hrun Hdata. simpl.
  rewrite session_recv_delivered by done. simpl.
  rewrite <- app_assoc. split; [done|]. split; [|done].
  rewrite serial_written_app. f_equal.
  unfold serial_written. simpl. apply app_nil_r.
Qed.

Lemma raw_bytes_written_to_serial_witness :
  let w := World (Some 1) (Some ("10.0.0.7", 50112%N)) true [] in
  let t := Session 1 ("10.0.0.7", 50112%N) Receiving [] in
  let r := session_recv w t (Recv [xff; xfb; x03; x06] true) in
  serial_written (trace r.1) = [xff; xfb; x03; x06]
  ∧ data_to_write r.2 = [x06].
Proof.
  pose proof (raw_bytes_written_to_serial
    (World (Some 1) (Some ("10.0.0.7", 50112%N)) true [])
    (Session 1 ("10.0.0.7", 50112%N) Receiving [])
    [xff; xfb; x03; x06] eq_refl eq_refl ltac:(discriminate)) as H.
  simpl in H. destruct H as (_ & Hw & Hv & _).
  split; [exact Hw | exact Hv].
Defined.


(** *** The pump thread *)

Lemma pump_step_globals w p e : globals (pump_step w p e).1 = globals w.
Proof.
  unfold pump_step, serial_to_tcp_body.
  destruct p; [|done].
  destruct (is_running w && bool_decide (is_Some (tcp_socket w))); [|done].
  destruct e as [| |data sent]; try done.
  case_decide; [done|].
  destruct (tcp_socket w); [|done].
  destruct sent; [|done].
  by destruct (client_address w).
Qed.

Lemma pump_step_quiet w p e : quiet p → quiet (pump_step w p e).2.
Proof.
  intros Hp. unfold pump_step, serial_to_tcp_body.
  destruct p as [|o]; [|done].
  destruct (is_running w && bool_decide (is_Some (tcp_socket w)));
    [|by right].
  destruct e as [| |data sent]; simpl; [by left | by right |].
  case_decide; [by left|].
  destruct (tcp_socket w); [|by right].
  destruct sent; [|by right].
  destruct (client_address w); [by left | by right].
Qed.

Lemma serial_to_tcp_snoc w evs e :
  serial_to_tcp w (evs ++ [e])
  = pump_step (serial_to_tcp w evs).1 (serial_to_tcp w evs).2 e.
Proof. unfold serial_to_tcp. by rewrite foldl_snoc. Qed.

Lemma serial_to_tcp_quiet w evs : quiet (serial_to_tcp w evs).2.
Proof.
  induction evs as [|e evs IH] using rev_ind; [by left|].
  rewrite serial_to_tcp_snoc. by apply pump_step_quiet.
Qed.

Lemma serial_to_tcp_globals w evs :
  globals (serial_to_tcp w evs).1 = globals w.
Proof.
  induction evs as [|e evs IH] using rev_ind; [done|].
  rewrite serial_to_tcp_snoc. by rewrite pump_step_globals.
Qed.

(** [C4], as the code has it: a serial failure or a send failure inside
    the pump is handled inside the pump, whose thread ends by a normal
    return; and whatever the pump meets, its thread never ends with an
    exception. *)
Theorem pump_errors_end_the_pump_only w e :
  is_running w = true → is_Some (tcp_socket w) → pump_error e →
  (pump_step w Pumping e).2 = Finished Returned
  ∧ ∀ evs x, (serial_to_tcp w evs).2 ≠ Finished (Uncaught x).
Proof.
  intros Hrun [c Hc] He. split.
  - unfold pump_step, serial_to_tcp_body. rewrite Hrun, Hc. simpl.
    destruct He as [-> | (data & Hdata & ->)]; [done|].
    by case_decide.
  - intros evs x Hx.
    destruct (serial_to_tcp_quiet w evs) as [H | H];
      rewrite H in Hx; discriminate.
Qed.

Lemma pump_errors_end_the_pump_only_witness :
  let w := World (Some 1) (Some ("10.0.0.7", 50112%N)) true [] in
  (pump_step w Pumping SerialFails).2 = Finished Returned
  ∧ ∀ evs x, (serial_to_tcp w evs).2 ≠ Finished (Uncaught x).
Proof.
  apply (pump_errors_end_the_pump_only
           (World (Some 1) (Some ("10.0.0.7", 50112%N)) true [])
           SerialFails).
  - reflexivity.
  - exists 1. reflexivity.
  - left. reflexivity.
Defined.

(** [C4], as stated, fails: the code has no stop flag for the pump to
    set.  After a send failure the pump has returned and the shared
    variables are as before, so the session's loop condition
    [is_running] still holds and its next receive is served. *)
Lemma pump_failure_sets_no_flag :
  let w := World (Some 1) (Some ("10.0.0.7", 50112%N)) true [] in
  let t := Session 1 ("10.0.0.7", 50112%N) Receiving [] in
  let r := pump_step w Pumping (SerialData [x03] false) in
  r.2 = Finished Returned
  ∧ globals r.1 = globals w
  ∧ is_running r.1 = true
  ∧ pc (session_recv r.1 t (Recv [x01] true)).2 = Receiving.
Proof. repeat split. Qed.

(** *** Byte order in each direction *)







Lemma handle_tcp_client_snoc w c a evs e :
  handle_tcp_client w c a (evs ++ [e])
  = session_recv (handle_tcp_client w c a evs).1
                 (handle_tcp_client w c a evs).2 e.
Proof. unfold handle_tcp_client. by rewrite foldl_snoc. Qed.

Lemma session_recv_ended w t e o :
  pc t = Ended o → session_recv w t e = (w, t).
Proof. intros H. unfold session_recv. by rewrite H. Qed.






(** *** The end of a session *)

(** While the session thread, run on its own, is in its loop, the slot
    holds its connection. *)
Lemma handle_tcp_client_receiving w c a evs :
  pc (handle_tcp_client w c a evs).2 = Receiving →
  tcp_socket (handle_tcp_client w c a evs).1 = Some c
  ∧ client_address (handle_tcp_client w c a evs).1 = Some a
  ∧ is_running (handle_tcp_client w c a evs).1 = is_running w
  ∧ conn (handle_tcp_client w c a evs).2 = c.
Proof.
  induction evs as [|e evs IH] using rev_ind; [done|].
  rewrite handle_tcp_client_snoc.
  destruct (handle_tcp_client w c a evs) as [w1 t1]. simpl in *.
  unfold session_recv, session_exit.
  destruct (pc t1) eqn:Hpc; try (simpl; congruence).
  specialize (IH eq_refl) as (Hs & Ha & Hr & Hc).
  destruct (is_running w1) eqn:Hrun.
  2:{ destruct (release w1). simpl. congruence. }
  destruct e as [|data written].
  { destruct (release w1). simpl. congruence. }
  case_decide.
  { destruct (release (emit _ w1)). simpl. congruence. }
  destruct written; [simpl; intros _; repeat split; congruence|].
  destruct (release (emit _ w1)). simpl. congruence.
Qed.

Lemma session_leaves w c a evs e :
  is_running w = true →
  pc (handle_tcp_client w c a evs).2 = Receiving →
  leaves e →
  let r := handle_tcp_client w c a (evs ++ [e]) in
  pc r.2 = Ended Returned
  ∧ globals r.1 = (None, None, true)
  ∧ last (trace r.1) = Some (Close c).
Proof.
  intros Hrun Hpc He. simpl. rewrite handle_tcp_client_snoc.
  destruct (handle_tcp_client_receiving w c a evs Hpc) as (Hs & Ha & Hr & Hc).
  destruct (handle_tcp_client w c a evs) as [w1 t1]. simpl in *.
  unfold session_recv, session_exit, release, globals.
  rewrite Hpc, Hr, Hrun.
  destruct He as [-> | [[written ->] | (data & Hd & ->)]].
  - rewrite Hs. simpl. by rewrite last_snoc.
  - rewrite decide_True by done. simpl. rewrite Hs. simpl.
    by rewrite Hr, Hrun, last_snoc.
  - rewrite decide_False by done. simpl. rewrite Hs. simpl.
    by rewrite Hr, Hrun, last_snoc.
Qed.

Lemma listener_accepts_on_free_slot w c a :
  globals w = (None, None, true) →
  listener_step w (AcceptOk c a) = (w, Spawn c a).
Proof.
  unfold globals, listener_step. intros [= Hs Ha Hr]. by rewrite Hr, Hs.
Qed.




(** The receive pump meeting an error ([recv] or the serial write
    raises) tears the session down: the thread returns, its connection
    is closed, the slot is cleared, the serial pump stops at its next
    turn and the next accept starts a session. *)
Lemma session_failure_tears_down w c a evs e :
  is_running w = true →
  pc (handle_tcp_client w c a evs).2 = Receiving →
  e = RecvFails ∨ (∃ data, data ≠ [] ∧ e = Recv data false) →
  let r := handle_tcp_client w c a (evs ++ [e]) in
  pc r.2 = Ended Returned
  ∧ last (trace r.1) = Some (Close c)
  ∧ tcp_socket r.1 = None
  ∧ (∀ ev, pump_step r.1 Pumping ev = (r.1, Finished Returned))
  ∧ ∀ c' a', listener_step r.1 (AcceptOk c' a') = (r.1, Spawn c' a').
Proof.
  intros Hrun Hpc He.
  destruct (session_leaves w c a evs e Hrun Hpc) as (Hend & Hg & Hlast).
  { destruct He as [-> | ?]; [by left | by right; right]. }
  simpl in *. pose proof Hg as [= Hs Ha Hr].
  split; [done|]. split; [done|]. split; [done|]. split.
  - intros ev. unfold pump_step. by rewrite Hs, Hr.
  - intros c' a'. by apply listener_accepts_on_free_slot.
Qed.

(** *** The threads together *)

(** While the slot is occupied the listener closes every connection it
    accepts and starts no thread for it. *)
Lemma accept_rejected_while_occupied s c a :
  listening s = true → is_running (shared s) = true →
  is_Some (tcp_socket (shared s)) →
  step s (Listen (AcceptOk c a))
  = System (emit [Close c] (shared s)) (sessions s) (pumps s) true.
Proof.
  intros Hl Hr [c0 Hs]. unfold step, listener_step. by rewrite Hl, Hr, Hs.
Qed.

(** [C3] at the failing schedule: one client is connected and the
    serial port has a byte for it, but [sendall] raises.  The pump thread
    returns; the slot still holds the connection, which nobody closed;
    the session thread is still in its receive loop; and the next client
    to connect is turned away. *)
Theorem send_failure_leaves_session_open :
  let s1 := run boot [Listen (AcceptOk 1 ("10.0.0.7", 50112%N)); Start 0] in
  let s2 := step s1 (Poll 0 (SerialData [x03] false)) in
  let s3 := step s2 (Listen (AcceptOk 2 ("10.0.0.8", 50113%N))) in
  pumps s2 = [Finished Returned]
  ∧ tcp_socket (shared s2) = Some 1
  ∧ (Close 1 ∉ trace (shared s2))
  ∧ active_sessions s2 = [Session 1 ("10.0.0.7", 50112%N) Receiving []]
  ∧ sessions s3 = sessions s2
  ∧ trace (shared s3) = [SerialRead [x03]; Close 2].
Proof.
  repeat split. simpl. intros Hin.
  apply list_elem_of_singleton in Hin. discriminate.
Qed.

(** [C5] at the failing schedule: two clients connect one right after
    the other, and the listener accepts the second before the thread of
    the first has stored its socket in [tcp_socket].  Neither connection
    is closed and both get a session thread and a pump thread. *)
Theorem back_to_back_accepts_start_two_sessions :
  let s := run boot [Listen (AcceptOk 1 ("10.0.0.7", 50112%N));
                     Listen (AcceptOk 2 ("10.0.0.8", 50113%N));
                     Start 0; Start 1] in
  active_sessions s = [Session 1 ("10.0.0.7", 50112%N) Receiving [];
                       Session 2 ("10.0.0.8", 50113%N) Receiving []]
  ∧ pumps s = [Pumping; Pumping]
  ∧ trace (shared s) = [].
Proof. repeat split. Qed.


(** The scenario of the design document, on one schedule: a client
    connects and sends [01 02], which reach the serial port; the device
    answers [03 04 05], which reach the client; the client sends
    [FF FB 03 06], written raw while the filtered copy is [06]; the
    client disconnects, the slot is cleared, the pump stops, and a second
    peer is served. *)
Example relay_scenario :
  let s := run boot [Listen (AcceptOk 1 ("10.0.0.7", 50112%N)); Start 0;
                     Receive 0 (Recv [x01; x02] true);
                     Poll 0 (SerialData [x03; x04; x05] true);
                     Receive 0 (Recv [xff; xfb; x03; x06] true)] in
  let s' := run s [Receive 0 (Recv [] true); Poll 0 SerialIdle;
                   Listen (AcceptOk 2 ("10.0.0.8", 50113%N)); Start 1] in
  serial_written (trace (shared s)) = [x01; x02; xff; xfb; x03; x06]
  ∧ tcp_sent 1 (trace (shared s)) = [x03; x04; x05]
  ∧ data_to_write <$> sessions s = [[x06]]
  ∧ pumps s' = [Finished Returned; Pumping]
  ∧ active_sessions s' = [Session 2 ("10.0.0.8", 50113%N) Receiving []]
  ∧ tcp_socket (shared s') = Some 2.
Proof. repeat split. Qed.

(** When two clients have connected back to back and both got a
    session, the slot holds the second connection.  When both clients
    then disconnect, the first session's
    [finally] block closes the second connection and clears the slot, and
    the second session's [finally] block finds the slot cleared: its
    thread ends with [AttributeError] and the first connection is never
    closed. *)
Example second_release_on_cleared_slot :
  let s := run boot [Listen (AcceptOk 1 ("10.0.0.7", 50112%N));
                     Listen (AcceptOk 2 ("10.0.0.8", 50113%N));
                     Start 0; Start 1;
                     Receive 0 (Recv [] true); Receive 1 (Recv [] true)] in
  pc <$> sessions s = [Ended Returned; Ended (Uncaught AttributeError)]
  ∧ trace (shared s) = [TcpRecv 1 []; Close 2; TcpRecv 2 []].
Proof. repeat split. Qed.

(** *** Truncated markers *)

(** [C6] When the scan reaches a 0xFF marker with fewer than two bytes
    after it in the buffer, the marker and the bytes after it are dropped
    and the result is what comes before.  Nothing is kept for the next
    buffer: the filtered copy of a buffer depends on that buffer alone,
    so after [41 FF] the buffer [FB 01 42] is filtered to itself. *)
Theorem truncated_marker_drops_rest :
  (∀ segs rest,
     Forall plain_ok segs → length rest < 2 →
     iac_filter ((segs ≫= wire) ++ IAC :: rest) = segs ≫= kept
     ∧ iac_filter ((segs ≫= wire) ++ IAC :: rest) = iac_filter (segs ≫= wire))
  ∧ (∀ w t d1 d2,
       pc t = Receiving → is_running w = true → d1 ≠ [] → d2 ≠ [] →
       let r1 := session_recv w t (Recv d1 true) in
       let r2 := session_recv r1.1 r1.2 (Recv d2 true) in
       data_to_write r1.2 = iac_filter d1
       ∧ data_to_write r2.2 = iac_filter d2)
  ∧ iac_filter [x41; xff] = [x41]
  ∧ iac_filter [xfb; x01; x42] = [xfb; x01; x42].
Proof.
  split; [|split; [|split; reflexivity]].
  - intros segs rest Hok Hlen.
    pose proof (scan_segments segs [] Hok) as Hwhole.
    rewrite !app_nil_r in Hwhole.
    rewrite !iac_filter_scan, Hwhole, scan_segments by done.
    rewrite scan_truncated by (by exists rest).
    by rewrite app_nil_r.
  - intros w t d1 d2 Hpc Hrun Hd1 Hd2. simpl.
    rewrite (session_recv_delivered w t d1) by done. simpl.
    by rewrite session_recv_delivered.
Qed.

Lemma truncated_marker_drops_rest_witness :
  iac_filter (([Plain x41; Command xfb x01] ≫= wire) ++ IAC :: [x42])
  = [Plain x41; Command xfb x01] ≫= kept.
Proof.
  apply (proj1 truncated_marker_drops_rest
           [Plain x41; Command xfb x01] [x42]).
  - repeat constructor; simpl; discriminate.
  - simpl. lia.
Defined.

(** *** Releasing the slot *)

(** [C9], as the code has it: the [finally] block of a session, run with
    a connection in the slot, closes that connection, clears the slot and
    raises nothing; run again on the cleared slot it raises
    [AttributeError] at [tcp_socket.close()] and leaves the slot
    cleared. *)
Theorem release_clears_then_raises w c :
  tcp_socket w = Some c →
  release w = (World None None (is_running w) (trace w ++ [Close c]), Returned)
  ∧ release (release w).1 = ((release w).1, Uncaught AttributeError).
Proof. intros Hc. unfold release. rewrite Hc. done. Qed.

Lemma release_clears_then_raises_witness :
  let w := World (Some 1) (Some ("10.0.0.7", 50112%N)) true [] in
  release w = (World None None true [Close 1], Returned)
  ∧ release (release w).1 = ((release w).1, Uncaught AttributeError).
Proof.
  exact (release_clears_then_raises
           (World (Some 1) (Some ("10.0.0.7", 50112%N)) true []) 1 eq_refl).
Defined.

(** [C9], as stated, fails: a second release on the cleared slot does
    not succeed. *)
Lemma release_twice_raises :
  let w := World (Some 1) (Some ("10.0.0.7", 50112%N)) true [] in
  (release w).2 = Returned
  ∧ tcp_socket (release w).1 = None
  ∧ (release (release w).1).2 ≠ Returned.
Proof. repeat split; discriminate. Qed.

End TunnelFacts.

(** ** More on the IAC filter: fixed points, sizes, streams *)

Module IacStreamFacts.
Import Iac IacStream IacFacts.

Lemma scan_clean data : IAC ∉ data → scan 0 data = data.
Proof.
  induction data as [|b rest IH]; [done|].
  intros [Hb Hrest]%not_elem_of_cons. simpl.
  rewrite decide_False by done. by rewrite IH.
Qed.

(** [X1] Filtering is idempotent: what the filter returns holds no
    marker, so filtering it again changes nothing. *)
Theorem iac_filter_idempotent data :
  iac_filter (iac_filter data) = iac_filter data.
Proof.
  rewrite !iac_filter_scan. apply scan_clean, scan_no_marker.
Qed.

(** [X2] The filter returns a buffer unchanged exactly when the buffer
    holds no 0xFF byte. *)
Theorem iac_filter_fixed_iff_clean data :
  iac_filter data = data ↔ IAC ∉ data.
Proof.
  rewrite iac_filter_scan. split.
  - intros Heq. rewrite <- Heq. apply scan_no_marker.
  - apply scan_clean.
Qed.

Lemma scan_length_lower data : ∀ k,
  length data ≤ length (scan k data) + k + 3 * markers data.
Proof.
  unfold markers.
  induction data as [|b rest IH]; intros k; simpl; [lia|].
  destruct k as [|k].
  - rewrite filter_cons. case_decide.
    + specialize (IH 2). simpl. lia.
    + specialize (IH 0). simpl. lia.
  - specialize (IH k). rewrite filter_cons. case_decide; simpl; lia.
Qed.

(** [X3] The filter drops at most three bytes for each 0xFF byte of the
    buffer. *)
Theorem iac_filter_drops_at_most_three_per_marker data :
  length data ≤ length (iac_filter data) + 3 * markers data.
Proof.
  rewrite iac_filter_scan. pose proof (scan_length_lower data 0). lia.
Qed.

Lemma iac_loop_starved fuel : ∀ data i acc,
  IAC ∉ data → fuel < length data - i →
  iac_loop fuel data i acc = None.
Proof.
  induction fuel as [|fuel IH]; intros data i acc Hclean Hfuel; simpl.
  - by rewrite decide_True by lia.
  - rewrite decide_True by lia.
    destruct (lookup_lt_is_Some_2 data i) as [b Hb]; [lia|].
    rewrite Hb. rewrite decide_False.
    + apply IH; [done | lia].
    + intros ->. apply Hclean. by eapply list_elem_of_lookup_2.
Qed.

(** [X4] The filter loop ends: [len(data)] iterations always suffice,
    whatever the bytes, and the index is never out of range; on a buffer
    without marker fewer iterations do not suffice. *)
Theorem iac_loop_ends_within_length data fuel :
  (length data ≤ fuel → iac_loop fuel data 0 [] = Some (iac_filter data))
  ∧ (IAC ∉ data → fuel < length data → iac_loop fuel data 0 [] = None).
Proof.
  split.
  - intros Hfuel. rewrite iac_filter_scan, iac_loop_scan by lia.
    by rewrite drop_0.
  - intros Hclean Hfuel. apply iac_loop_starved; [done | lia].
Qed.

Lemma iac_loop_ends_within_length_witness :
  iac_loop 5 [x41; xff; xfb; x01; x42] 0 [] = Some [x41; x42]
  ∧ iac_loop 2 [x41; x42; x43] 0 [] = None.
Proof.
  split.
  - apply (proj1 (iac_loop_ends_within_length [x41; xff; xfb; x01; x42] 5)).
    simpl. lia.
  - apply (proj2 (iac_loop_ends_within_length [x41; x42; x43] 2)).
    + intros Hin. repeat (apply elem_of_cons in Hin as [Hin | Hin];
        [discriminate|]). by apply elem_of_nil in Hin.
    + simpl. lia.
Defined.

(** *** Two buffers in a row *)

Lemma iac_loop_end_over fuel : ∀ data i,
  length data - i ≤ fuel →
  iac_loop_end fuel data i
  = Some (length data + over (i - length data) (drop i data)).
Proof.
  induction fuel as [|fuel IH]; intros data i Hfuel; simpl.
  - rewrite decide_False by lia. rewrite drop_ge by lia. simpl.
    f_equal. lia.
  - case_decide as Hi.
    + destruct (lookup_lt_is_Some_2 data i Hi) as [b Hb].
      rewrite Hb, (drop_S data b i Hb).
      replace (i - length data) with 0 by lia. simpl.
      case_decide as Hm.
      * rewrite IH by lia. f_equal.
        destruct (decide (i + 3 ≤ length data)) as [Hle | Hgt].
        -- replace (i + 3 - length data) with 0 by lia.
           replace (drop (i + 3) data) with (drop 2 (drop (S i) data))
             by (rewrite drop_drop; f_equal; lia).
           assert (2 ≤ length (drop (S i) data)) as Hlen
             by (rewrite length_drop; lia).
           destruct (drop (S i) data) as [|c [|o rest]];
             simpl in Hlen; try lia. simpl. rewrite drop_0. lia.
        -- rewrite (drop_ge data (i + 3)) by lia. simpl.
           assert (length (drop (S i) data) = length data - S i) as Hlen
             by apply length_drop.
           destruct (drop (S i) data) as [|c [|o rest]];
             simpl in Hlen; simpl; lia.
      * rewrite IH by lia. f_equal.
        replace (i + 1 - length data) with 0 by lia.
        replace (i + 1) with (S i) by lia. lia.
    + rewrite drop_ge by lia. simpl. f_equal. lia.
Qed.

Lemma overrun_over data : overrun data = over 0 data.
Proof.
  unfold overrun. rewrite iac_loop_end_over by lia.
  replace (0 - length data) with 0 by lia.
  rewrite drop_0. simpl. lia.
Qed.

Lemma scan_app a : ∀ k b,
  scan k (a ++ b) = scan k a ++ scan (over k a) b.
Proof.
  induction a as [|x a IH]; intros k b; simpl; [done|].
  destruct k as [|k]; [|apply IH].
  case_decide; [apply IH|]. by rewrite IH.
Qed.

Lemma over_bound a : ∀ k, k ≤ 2 → over k a ≤ 2.
Proof.
  induction a as [|x a IH]; intros k Hk; simpl; [done|].
  destruct k as [|k]; [|apply IH; lia].
  case_decide; apply IH; lia.
Qed.

Lemma over_segments segs : ∀ rest,
  Forall plain_ok segs → over 0 ((segs ≫= wire) ++ rest) = over 0 rest.
Proof.
  induction segs as [|[b|cmd opt] segs IH]; intros rest Hok; [done| |].
  - apply Forall_cons in Hok as [Hb Hok]. simpl in Hb |- *.
    rewrite decide_False by done. by apply IH.
  - apply Forall_cons in Hok as [_ Hok]. simpl. by apply IH.
Qed.

(** [X5] Filtering two buffers one after the other is filtering their
    concatenation only up to the bytes a cut group leaves behind: the
    filter of [a ++ b] is the filter of [a] followed by the filter of [b]
    without its first [overrun a] bytes, where [overrun a], at most 2, is
    how far the index ran past the end of [a].  When [a] ends on a whole
    group or a plain byte the overrun is 0 and the two agree. *)
Theorem iac_filter_app a b :
  iac_filter (a ++ b) = iac_filter a ++ iac_filter (drop (overrun a) b)
  ∧ overrun a ≤ 2
  ∧ (∀ segs, Forall plain_ok segs → a = segs ≫= wire → overrun a = 0).
Proof.
  rewrite !iac_filter_scan, overrun_over. split; [|split].
  - rewrite scan_app. f_equal. apply scan_drop.
  - apply over_bound. lia.
  - intros segs Hok ->.
    pose proof (over_segments segs [] Hok) as H.
    by rewrite app_nil_r in H.
Qed.

Lemma iac_filter_app_witness :
  overrun ([Plain x41; Command xfb x01] ≫= wire) = 0.
Proof.
  apply (proj2 (proj2 (iac_filter_app
           ([Plain x41; Command xfb x01] ≫= wire) []))
           [Plain x41; Command xfb x01]).
  - repeat constructor; simpl; discriminate.
  - reflexivity.
Defined.

End IacStreamFacts.

(** ** More on the threads: what each one does and never does *)

Module ThreadFacts.
Import Iac Tunnel Server IacFacts TunnelFacts.

(** *** The session thread on its own *)

Lemma session_recv_alone c a w t e :
  pc t = Receiving → conn t = c →
  tcp_socket w = Some c → client_address w = Some a →
  ∃ tr, trace (session_recv w t e).1 = trace w ++ tr
        ∧ Forall (session_io c) tr
        ∧ conn (session_recv w t e).2 = c
        ∧ (pc (session_recv w t e).2 = Receiving
           ∧ tcp_socket (session_recv w t e).1 = Some c
           ∧ client_address (session_recv w t e).1 = Some a
           ∧ Forall (λ x, x ≠ Close c) tr
           ∨ pc (session_recv w t e).2 = Ended Returned
             ∧ tcp_socket (session_recv w t e).1 = None
             ∧ client_address (session_recv w t e).1 = None
             ∧ last tr = Some (Close c)).
Proof.
  intros Hpc Hc Hs Ha. unfold session_recv, session_exit, release.
  rewrite Hpc. destruct (is_running w).
  2:{ rewrite Hs. simpl. exists [Close c].
      repeat split; [by repeat constructor | done | by right]. }
  destruct e as [|data written].
  { rewrite Hs. simpl. exists [Close c].
    repeat split; [by repeat constructor | done | by right]. }
  case_decide as Hd.
  { simpl. rewrite Hs. simpl. exists [TcpRecv (conn t) data; Close c].
    rewrite <- app_assoc. repeat split; [|done | by right].
    by repeat constructor. }
  destruct written; simpl.
  - exists [TcpRecv (conn t) data; SerialWrite data].
    rewrite <- app_assoc. repeat split; [|done|].
    + by repeat constructor.
    + left. repeat split; [done | done |]. by repeat constructor.
  - rewrite Hs. simpl.
    exists [TcpRecv (conn t) data; Close c].
    rewrite <- app_assoc. repeat split; [|done | by right].
    by repeat constructor.
Qed.

Lemma session_alone w c a evs :
  ∃ tr, trace (handle_tcp_client w c a evs).1 = trace w ++ tr
        ∧ Forall (session_io c) tr
        ∧ conn (handle_tcp_client w c a evs).2 = c
        ∧ session_standing c a (handle_tcp_client w c a evs).1
                           (handle_tcp_client w c a evs).2 tr.
Proof.
  induction evs as [|e evs IH] using rev_ind.
  { exists []. rewrite app_nil_r. repeat split; [done|].
    left. repeat split. apply not_elem_of_nil. }
  destruct IH as (tr & Htr & Hio & Hc & Hst).
  rewrite handle_tcp_client_snoc.
  destruct (handle_tcp_client w c a evs) as [w1 t1]. simpl in *.
  destruct Hst as [(Hpc & Hs & Ha & Hnc) | (Hpc & Hs & Ha & Hlast)].
  - destruct (session_recv_alone c a w1 t1 e Hpc Hc Hs Ha)
      as (tr' & Htr' & Hio' & Hc' & Hst').
    exists (tr ++ tr'). rewrite Htr', Htr, <- app_assoc.
    repeat split; [by apply Forall_app | done |].
    destruct Hst' as [(? & ? & ? & Hnc') | (? & ? & ? & Hlast')].
    + left. repeat split; try done.
      rewrite elem_of_app. intros [? | Hin]; [done|].
      by eapply Forall_forall in Hnc'.
    + right. repeat split; try done.
      destruct tr' as [|x tr'] using rev_ind; [done|].
      rewrite last_snoc in Hlast'. by rewrite app_assoc, last_snoc.
  - rewrite (session_recv_ended w1 t1 e Returned Hpc). simpl.
    exists tr. repeat split; try done. by right.
Qed.

(** [X6] The session thread run on its own never ends with an exception
    and keeps the slot in step with itself: while it is in its receive
    loop the slot holds its connection and address; once it has returned,
    however it left the loop, the slot is cleared and the last thing it
    did was close its own connection. *)
Theorem session_alone_ends_cleanly w c a evs :
  let r := handle_tcp_client w c a evs in
  (pc r.2 = Receiving ∧ tcp_socket r.1 = Some c
   ∧ client_address r.1 = Some a)
  ∨ (pc r.2 = Ended Returned ∧ tcp_socket r.1 = None
     ∧ client_address r.1 = None ∧ last (trace r.1) = Some (Close c)).
Proof.
  simpl. destruct (session_alone w c a evs) as (tr & Htr & _ & _ & Hst).
  destruct Hst as [(? & ? & ? & _) | (? & ? & ? & Hlast)]; [by left | right].
  repeat split; try done. rewrite Htr.
  destruct tr as [|x tr] using rev_ind; [done|].
  rewrite last_snoc in Hlast. by rewrite app_assoc, last_snoc.
Qed.

(** [X7] All the session thread does to the outside is receive on its
    own connection, write non-empty buffers to the serial port, and close
    its own connection, which it does not do before it leaves its loop.
    It never sends on a socket, never reads the serial port and never
    closes another connection. *)
Theorem session_effects_are_its_own w c a evs :
  let r := handle_tcp_client w c a evs in
  ∃ tr, trace r.1 = trace w ++ tr
        ∧ Forall (session_io c) tr
        ∧ (pc r.2 = Receiving → Close c ∉ tr).
Proof.
  simpl. destruct (session_alone w c a evs) as (tr & Htr & Hio & _ & Hst).
  exists tr. repeat split; try done. intros Hpc.
  destruct Hst as [(_ & _ & _ & Hnc) | (Hend & _)]; [done|].
  rewrite Hend in Hpc. discriminate.
Qed.

(** *** The pump thread on its own *)

Lemma pump_step_effects w p e :
  ∃ tr, trace (pump_step w p e).1 = trace w ++ tr
        ∧ Forall (pump_io (tcp_socket w)) tr
        ∧ (tcp_socket w = None ∨ is_running w = false → tr = []).
Proof.
  unfold pump_step, serial_to_tcp_body.
  destruct p; [|exists []; by rewrite app_nil_r].
  destruct (is_running w); simpl;
    [|exists []; by rewrite app_nil_r].
  destruct (tcp_socket w) as [c|] eqn:Hs; simpl;
    [|exists []; by rewrite app_nil_r].
  assert (∀ tr : list io, Some c = None ∨ true = false → tr = []) as Hno
    by (by intros tr [? | ?]).
  destruct e as [| |data sent]; simpl;
    try (exists []; by rewrite app_nil_r).
  case_decide as Hd; simpl.
  { exists [SerialRead data]. repeat split; [|by apply Hno].
    by repeat constructor. }
  destruct sent.
  - exists [SerialRead data; TcpSend c data].
    destruct (client_address w); simpl; rewrite <- app_assoc;
      (repeat split; [by repeat constructor | by apply Hno]).
  - exists [SerialRead data]. repeat split; [|by apply Hno].
    by repeat constructor.
Qed.

Lemma pump_run_effects w evs :
  ∃ tr, trace (serial_to_tcp w evs).1 = trace w ++ tr
        ∧ Forall (pump_io (tcp_socket w)) tr
        ∧ (tcp_socket w = None ∨ is_running w = false → tr = []).
Proof.
  induction evs as [|e evs IH] using rev_ind.
  { exists []. by rewrite app_nil_r. }
  destruct IH as (tr & Htr & Hio & Hidle).
  rewrite serial_to_tcp_snoc.
  pose proof (serial_to_tcp_globals w evs) as Hg.
  destruct (serial_to_tcp w evs) as [w1 p1]. simpl in *.
  injection Hg as Hs Ha Hr.
  destruct (pump_step_effects w1 p1 e) as (tr' & Htr' & Hio' & Hidle').
  rewrite Hs, Hr in *.
  exists (tr ++ tr'). rewrite Htr', Htr, <- app_assoc.
  repeat split; [by apply Forall_app|].
  intros Hw. by rewrite Hidle, Hidle'.
Qed.

(** [X8] The pump thread never assigns [tcp_socket], [client_address]
    or [is_running]; all it does to the outside is read the serial port
    and send non-empty chunks on the socket in the slot: it never closes
    a socket and never writes to the serial port.  With no client in the
    slot, or once [is_running] is false, it does not read the serial port
    at all. *)
Theorem pump_effects_are_forwarding_only w evs :
  let r := serial_to_tcp w evs in
  globals r.1 = globals w
  ∧ ∃ tr, trace r.1 = trace w ++ tr
          ∧ Forall (pump_io (tcp_socket w)) tr
          ∧ (tcp_socket w = None ∨ is_running w = false → tr = []).
Proof.
  simpl. split; [apply serial_to_tcp_globals | apply pump_run_effects].
Qed.


(** *** [start_server] on its own *)

Lemma listener_step_slot w e :
  tcp_socket (listener_step w e).1 = tcp_socket w
  ∧ client_address (listener_step w e).1 = client_address w.
Proof.
  unfold listener_step. destruct (is_running w); [|done].
  destruct e as [c a| |]; try done.
  by destruct (tcp_socket w) eqn:Hs; simpl; rewrite ?Hs.
Qed.

Lemma accept_loop_slot evs : ∀ w spawned,
  tcp_socket (accept_loop w spawned evs).1.1 = tcp_socket w
  ∧ client_address (accept_loop w spawned evs).1.1 = client_address w
  ∧ (is_Some (tcp_socket w) → (accept_loop w spawned evs).1.2 = spawned)
  ∧ ∀ c a, (c, a) ∈ (accept_loop w spawned evs).1.2 →
           (c, a) ∈ spawned ∨ Accepting (AcceptOk c a) ∈ evs.
Proof.
  induction evs as [|[e|] evs IH]; intros w spawned; simpl.
  - destruct (is_running w); simpl; auto.
  - destruct (listener_step_slot w e) as [Hs Ha].
    unfold listener_step in *. destruct (is_running w); simpl in *.
    2:{ repeat split; auto. }
    destruct e as [c a| |]; simpl in *.
    + destruct (tcp_socket w) as [c0|] eqn:Hs0; simpl in *.
      * destruct (IH (emit [Close c] w) spawned) as (H1 & H2 & H3 & H4).
        simpl in *. rewrite Hs0 in *.
        repeat split; try done. intros c' a' Hin.
        destruct (H4 c' a' Hin) as [? | ?]; [by left | right].
        by apply elem_of_cons; right.
      * destruct (IH w (spawned ++ [(c, a)])) as (H1 & H2 & H3 & H4).
        rewrite Hs0 in *. repeat split; try done.
        intros c' a' Hin.
        destruct (H4 c' a' Hin) as [Hsp | ?].
        -- apply elem_of_app in Hsp as [? | Hnew]; [by left | right].
           apply list_elem_of_singleton in Hnew as [= -> ->].
           by apply elem_of_cons; left.
        -- right. by apply elem_of_cons; right.
    + destruct (IH w spawned) as (H1 & H2 & H3 & H4).
      repeat split; try done. intros c' a' Hin.
      destruct (H4 c' a' Hin) as [? | ?]; [by left | right].
      by apply elem_of_cons; right.
    + repeat split; auto.
  - repeat split; auto.
Qed.

(** [X9] The accept loop only reads the slot: whatever arrives,
    [start_server] leaves [tcp_socket] and [client_address] as they were
    (filling the slot is left to the session threads).  It starts a
    session thread only for a connection it accepted, and on its own, with
    the slot occupied, it starts none. *)
Theorem start_server_only_reads_slot w serial_opens binds evs :
  let r := start_server w serial_opens binds evs in
  tcp_socket r.1.1 = tcp_socket w
  ∧ client_address r.1.1 = client_address w
  ∧ (is_Some (tcp_socket w) → r.1.2 = [])
  ∧ ∀ c a, (c, a) ∈ r.1.2 → Accepting (AcceptOk c a) ∈ evs.
Proof.
  simpl. unfold start_server.
  destruct serial_opens; simpl.
  2:{ repeat split; auto. intros c a Hin. by apply elem_of_nil in Hin. }
  destruct binds; simpl.
  2:{ repeat split; auto. intros c a Hin. by apply elem_of_nil in Hin. }
  destruct (accept_loop_slot evs w []) as (Hs & Ha & Hocc & Hin).
  destruct (accept_loop w [] evs) as [[w' spawned] gone]. simpl in *.
  repeat split; try done. intros c a Hca.
  destruct (Hin c a Hca) as [Hnil | ?]; [|done].
  by apply elem_of_nil in Hnil.
Qed.




(** *** The stop flag *)








(** *** After a session *)





(** *** One session at a time, when threads start promptly *)

Lemma session_recv_turn w t e :
  pc t = Receiving → tcp_socket w = Some (conn t) →
  conn (session_recv w t e).2 = conn t
  ∧ (pc (session_recv w t e).2 = Receiving
     ∧ tcp_socket (session_recv w t e).1 = Some (conn t)
     ∨ pc (session_recv w t e).2 = Ended Returned
       ∧ tcp_socket (session_recv w t e).1 = None).
Proof.
  intros Hpc Hs. unfold session_recv, session_exit, release.
  rewrite Hpc. destruct (is_running w); [|rewrite Hs; simpl; auto].
  destruct e as [|data written]; [rewrite Hs; simpl; auto|].
  case_decide; simpl; [rewrite Hs; simpl; auto|].
  destruct written; simpl; [auto|]. rewrite Hs. simpl. auto.
Qed.

Lemma one_at_a_time_slot_free ts j t :
  one_at_a_time None ts → ts !! j = Some t → pc t = Ended Returned.
Proof.
  intros Hinv Hj. destruct (Hinv j t Hj) as [[Hr | He] Hown]; [|done].
  by destruct (Hown Hr) as [? _].
Qed.

Lemma one_at_a_time_recv slot ts k t w' t' :
  one_at_a_time slot ts → ts !! k = Some t →
  conn t' = conn t →
  (pc t' = Receiving ∧ w' = slot ∧ pc t = Receiving
   ∨ pc t' = Ended Returned ∧ (pc t = Receiving → w' = None)
     ∧ (pc t ≠ Receiving → w' = slot)) →
  one_at_a_time w' (<[k:=t']> ts).
Proof.
  intros Hinv Hk Hc Hcase j u Hj.
  assert (k < length ts) as Hlen by (by eapply lookup_lt_Some).
  destruct (decide (j = k)) as [-> | Hne].
  - rewrite list_lookup_insert_eq in Hj by done. injection Hj as <-.
    destruct Hcase as [(Hr & -> & Hrt) | (He & _)].
    + split; [by left|]. intros _.
      destruct (Hinv k t Hk) as [_ Hown].
      destruct (Hown Hrt) as [Hs Huniq]. rewrite Hc. split; [done|].
      intros j' u' Hj' Hu'.
      destruct (decide (j' = k)) as [-> | Hne']; [done|].
      rewrite list_lookup_insert_ne in Hj' by done. by eapply Huniq.
    + split; [by right|]. intros Hr. rewrite He in Hr. discriminate.
  - rewrite list_lookup_insert_ne in Hj by done.
    destruct (Hinv j u Hj) as [Hpc Hown]. split; [done|]. intros Hr.
    destruct (Hown Hr) as [Hs Huniq].
    assert (pc t ≠ Receiving) as Hnt.
    { intros Hrt. apply Hne. symmetry. by eapply Huniq. }
    destruct Hcase as [(_ & _ & Hrt) | (He & _ & Hsame)]; [done|].
    rewrite Hsame by done. split; [done|].
    intros j' u' Hj' Hu'.
    destruct (decide (j' = k)) as [-> | Hne'].
    + rewrite list_lookup_insert_eq in Hj' by done. injection Hj' as <-.
      rewrite He in Hu'. discriminate.
    + rewrite list_lookup_insert_ne in Hj' by done. by eapply Huniq.
Qed.

Lemma one_at_a_time_step s a :
  one_at_a_time (tcp_socket (shared s)) (sessions s) →
  one_at_a_time (tcp_socket (shared (prompt_step s a)))
                (sessions (prompt_step s a)).
Proof.
  intros Hinv. destruct a as [e|k|k e|k e]; simpl.
  - (* the listener, then the thread it may have created *)
    destruct (listening s) eqn:Hl.
    2:{ simpl. rewrite Hl. by rewrite lookup_ge_None_2. }
    unfold listener_step.
    destruct (is_running (shared s)).
    2:{ simpl. by rewrite lookup_ge_None_2. }
    destruct e as [c a| |]; simpl; try by rewrite lookup_ge_None_2.
    destruct (tcp_socket (shared s)) eqn:Hs; simpl.
    { rewrite lookup_ge_None_2 by done. simpl. by rewrite Hs. }
    rewrite list_lookup_middle by done. simpl.
    intros j u Hj.
    assert (length (sessions s) < length (sessions s ++ [Session c a Starting []]))
      as Hlen by (rewrite length_app; simpl; lia).
    destruct (decide (j = length (sessions s))) as [-> | Hne].
    + rewrite list_lookup_insert_eq in Hj by done. injection Hj as <-.
      simpl. split; [by left|]. intros _. split; [done|].
      intros j' u' Hj' Hu'.
      destruct (decide (j' = length (sessions s))) as [-> | Hne']; [done|].
      rewrite list_lookup_insert_ne in Hj' by done.
      apply lookup_app_Some in Hj' as [Hj' | [Hge Hj']].
      * rewrite (one_at_a_time_slot_free _ _ _ Hinv Hj') in Hu'. discriminate.
      * apply list_lookup_singleton_Some in Hj' as [? _]. lia.
    + rewrite list_lookup_insert_ne in Hj by done.
      apply lookup_app_Some in Hj as [Hj | [Hge Hj]].
      * rewrite (one_at_a_time_slot_free _ _ _ Hinv Hj).
        split; [by right | done].
      * apply list_lookup_singleton_Some in Hj as [? _]. lia.
  - (* a start that comes on its own finds no thread waiting to start *)
    destruct (sessions s !! k) as [t|] eqn:Hk; [|done].
    destruct (Hinv k t Hk) as [[Hr | He] _]; by (rewrite Hr || rewrite He).
  - (* a receive *)
    destruct (sessions s !! k) as [t|] eqn:Hk; [|done].
    destruct (Hinv k t Hk) as [[Hr | He] Hown].
    + destruct (Hown Hr) as [Hs _].
      destruct (session_recv_turn (shared s) t e Hr Hs) as [Hc Hcase].
      destruct (session_recv (shared s) t e) as [w' t']. simpl in *.
      eapply one_at_a_time_recv; [done | done | done |].
      destruct Hcase as [[? ->] | [? ->]]; [left | right]; by rewrite ?Hs.
    + rewrite (session_recv_ended (shared s) t e Returned He). simpl.
      eapply one_at_a_time_recv; [done | done | done |].
      right. split; [done|]. split; [by rewrite He | done].
  - (* a turn of a pump *)
    destruct (pumps s !! k) as [p|]; [|done].
    pose proof (pump_step_globals (shared s) p e) as Hg.
    destruct (pump_step (shared s) p e) as [w' p']. simpl in *.
    injection Hg as -> _ _. done.
Qed.

Lemma one_at_a_time_run s schedule :
  one_at_a_time (tcp_socket (shared s)) (sessions s) →
  one_at_a_time (tcp_socket (shared (prompt_run s schedule)))
                (sessions (prompt_run s schedule)).
Proof.
  revert s. induction schedule as [|a schedule IH]; intros s Hinv; [done|].
  simpl. by apply IH, one_at_a_time_step.
Qed.

Lemma alone_filter {A} (P : A → Prop) `{∀ x, Decision (P x)} (l : list A) :
  (∀ j j' x x', l !! j = Some x → l !! j' = Some x' → P x → P x' → j' = j) →
  length (filter P l) ≤ 1.
Proof.
  induction l as [|y l IH]; intros Huniq; [simpl; lia|].
  rewrite filter_cons. case_decide as Hy.
  - assert (filter P l = []) as ->; [|simpl; lia].
    destruct (filter P l) as [|x xs] eqn:Hf; [done|].
    assert (x ∈ filter P l) as [Hpx Hx]%list_elem_of_filter
      by (rewrite Hf; by left).
    apply list_elem_of_lookup in Hx as [j Hj].
    by specialize (Huniq 0 (S j) y x eq_refl Hj Hy Hpx).
  - apply IH. intros j j' x x' Hj Hj' Hx Hx'.
    by specialize (Huniq (S j) (S j') x x' Hj Hj' Hx Hx') as [= ->].
Qed.

(** [X12] One client at a time, when threads start promptly.  On every
    schedule in which a newly created session thread runs its first
    statements before anything else happens (each loop turn and each
    [finally] block taken as one step), at most one session is active at
    any time, the slot holds the connection of the active session, no
    session thread ends with an exception, and a connection accepted while
    a session is active is closed without a thread being started. *)
Theorem prompt_threads_serve_one_client schedule :
  let s := prompt_run boot schedule in
  length (active_sessions s) ≤ 1
  ∧ Forall (λ t, pc t = Receiving ∨ pc t = Ended Returned) (sessions s)
  ∧ (∀ t, t ∈ active_sessions s → tcp_socket (shared s) = Some (conn t))
  ∧ ∀ c a, active_sessions s ≠ [] → listening s = true →
           is_running (shared s) = true →
           step s (Listen (AcceptOk c a))
           = System (emit [Close c] (shared s)) (sessions s) (pumps s) true.
Proof.
  simpl. set (s := prompt_run boot schedule).
  assert (one_at_a_time (tcp_socket (shared s)) (sessions s)) as Hinv.
  { apply one_at_a_time_run. intros j t Hj. simpl in Hj.
    by rewrite lookup_nil in Hj. }
  assert (∀ t, t ∈ active_sessions s →
               pc t = Receiving ∧ tcp_socket (shared s) = Some (conn t))
    as Hact.
  { intros t [Hal Ht]%list_elem_of_filter.
    apply list_elem_of_lookup in Ht as [j Hj].
    destruct (Hinv j t Hj) as [[Hr | He] Hown].
    - split; [done|]. by destruct (Hown Hr).
    - unfold alive in Hal. by rewrite He in Hal. }
  split; [|split; [|split]].
  - apply alone_filter. intros j j' t t' Hj Hj' Ht Ht'.
    destruct (Hinv j t Hj) as [[Hr | He] Hown];
      [|unfold alive in Ht; by rewrite He in Ht].
    destruct (Hinv j' t' Hj') as [[Hr' | He'] _];
      [|unfold alive in Ht'; by rewrite He' in Ht'].
    destruct (Hown Hr) as [_ Huniq]. by eapply Huniq.
  - apply Forall_forall. intros t Ht.
    apply list_elem_of_lookup in Ht as [j Hj]. by destruct (Hinv j t Hj).
  - intros t Ht. by destruct (Hact t Ht).
  - intros c a Hne Hl Hr. apply accept_rejected_while_occupied; try done.
    destruct (active_sessions s) as [|t ts] eqn:Has; [done|].
    destruct (Hact t) as [_ Hs]; [by left|]. by rewrite Hs.
Qed.

End ThreadFacts.

(** ** Properties of the console functions *)

Module ConsoleFacts.
Import Console.

(** *** The list of ports *)

Lemma insert_port_perm p l : insert_port p l ≡ₚ p :: l.
Proof.
  induction l as [|q rest IH]; simpl; [done|].
  case_decide; [done|]. rewrite IH. apply Permutation_swap.
Qed.

Lemma insert_port_sorted p l :
  StronglySorted (λ x y, String.le (device x) (device y)) l →
  StronglySorted (λ x y, String.le (device x) (device y)) (insert_port p l).
Proof.
  induction l as [|q rest IH]; intros Hl; simpl.
  - by repeat constructor.
  - apply StronglySorted_cons in Hl as [Hq Hrest].
    case_decide as Hpq.
    + apply StronglySorted_cons. split.
      * constructor; [done|]. eapply Forall_impl; [exact Hq|].
        intros r Hr. simpl in *. by etrans.
      * by apply StronglySorted_cons.
    + apply StronglySorted_cons. split; [|by apply IH].
      rewrite insert_port_perm. constructor; [|done].
      by destruct (total String.le (device p) (device q)).
Qed.

Lemma insert_port_stable d p l :
  filter (λ x, device x = d) (insert_port p l)
  = filter (λ x, device x = d) (p :: l).
Proof.
  induction l as [|q rest IH]; simpl; [done|].
  case_decide as Hpq; [done|].
  rewrite (filter_cons _ q), IH, !filter_cons.
  destruct (decide (device p = d)) as [Hp | Hp];
    destruct (decide (device q = d)) as [Hq | Hq]; try done.
  exfalso. apply Hpq. by rewrite Hp, Hq.
Qed.

Lemma listar_portas_com_perm comports : listar_portas_com comports ≡ₚ comports.
Proof.
  induction comports as [|p l IH]; [done|].
  simpl. by rewrite insert_port_perm, IH.
Qed.

(** [X13] The list of the menu holds exactly the ports that were
    detected, each once, in the order of their device names; ports with
    the same device name keep the order of detection. *)
Theorem listar_portas_com_sorts_by_device comports :
  StronglySorted (λ x y, String.le (device x) (device y))
                 (listar_portas_com comports)
  ∧ listar_portas_com comports ≡ₚ comports
  ∧ ∀ d, filter (λ x, device x = d) (listar_portas_com comports)
         = filter (λ x, device x = d) comports.
Proof.
  split; [|split].
  - induction comports as [|p l IH]; [constructor|].
    by apply insert_port_sorted.
  - apply listar_portas_com_perm.
  - intros d. induction comports as [|p l IH]; [done|].
    simpl. by rewrite insert_port_stable, !filter_cons, IH.
Qed.

Section Builtins.

Variable int : string → option Z.
Variable strip lower : string → string.

(** *** The port menu *)


Lemma menu_loop_chosen portas keys d rest :
  menu_loop int portas keys = Returns (Some d) rest →
  ∃ before s n p,
    keys = before ++ Typed s :: rest
    ∧ int s = Some n ∧ (1 ≤ n ≤ Z.of_nat (length portas))%Z
    ∧ portas !! Z.to_nat (n - 1) = Some p ∧ d = device p.
Proof.
  induction keys as [|k keys IH]; [done|]. simpl.
  assert (menu_loop int portas keys = Returns (Some d) rest →
          ∃ before s n p,
            k :: keys = before ++ Typed s :: rest
            ∧ int s = Some n ∧ (1 ≤ n ≤ Z.of_nat (length portas))%Z
            ∧ portas !! Z.to_nat (n - 1) = Some p ∧ d = device p) as Hlater.
  { intros (before & s & n & p & -> & ?)%IH. by exists (k :: before), s, n, p. }
  destruct k as [escolha| |]; try done.
  case_decide; [done|].
  destruct (int escolha) as [n|] eqn:Hint; [|done].
  case_decide as Hidx; [|done].
  destruct (portas !! Z.to_nat (n - 1)) as [p|] eqn:Hp; [|done].
  intros [= <- <-]. exists [], escolha, n, p.
  repeat split; try done; lia.
Qed.

(** [X14] The menu never returns a device that was not detected: when
    it returns a device, the last line read parses as a number between 1
    and the number of ports, and the device is the one at that position of
    the list shown. *)
Theorem menu_returns_a_listed_device comports keys d rest :
  exibir_menu_portas int comports keys = Returns (Some d) rest →
  ∃ before s n p,
    keys = before ++ Typed s :: rest
    ∧ int s = Some n ∧ (1 ≤ n ≤ Z.of_nat (length comports))%Z
    ∧ listar_portas_com comports !! Z.to_nat (n - 1) = Some p
    ∧ p ∈ comports ∧ d = device p.
Proof.
  unfold exibir_menu_portas. case_decide; [done|].
  intros (before & s & n & p & -> & Hint & Hn & Hp & ->)%menu_loop_chosen.
  exists before, s, n, p.
  rewrite (listar_portas_com_perm comports) in Hn.
  repeat split; try done; try lia.
  rewrite <- (listar_portas_com_perm comports).
  by eapply list_elem_of_lookup_2.
Qed.




(** *** The TCP port question *)

Lemma port_loop_range keys p rest :
  port_loop int strip keys = Returns p rest → (1024 ≤ p ≤ 65535)%Z.
Proof.
  induction keys as [|k keys IH]; [done|]. simpl.
  destruct k as [line| |]; try done.
  - destruct (int (strip line)) as [n|]; [|done].
    case_decide; [|done]. by intros [= <- _].
  - intros [= <- _]. unfold TCP_PORT. lia.
Qed.

(** [X17] Whatever is typed and however the lines are parsed, a port
    that [configurar_tcp] returns lies between 1024 and 65535. *)
Theorem configurar_tcp_port_in_range keys p rest :
  configurar_tcp int strip lower keys = Returns p rest →
  (1024 ≤ p ≤ 65535)%Z.
Proof.
  unfold configurar_tcp. destruct keys as [|[line| |] keys]; try done.
  case_decide; [apply port_loop_range|].
  intros [= <- _]. unfold TCP_PORT. lia.
Qed.



(** *** The program entry *)

(** [X19] The program only ever starts the server on a serial device
    that was detected, with a non-empty name, and on a TCP port between
    1024 and 65535. *)
Theorem main_starts_on_listed_device_and_valid_port comports keys d p rest :
  main int strip lower comports keys = Started d p rest →
  (∃ x, x ∈ comports ∧ device x = d) ∧ d ≠ "" ∧ (1024 ≤ p ≤ 65535)%Z.
Proof.
  unfold main.
  destruct (exibir_menu_portas int comports keys)
    as [[porta_com|] rest1 | |] eqn:Hmenu; try done.
  case_decide as Hne; [done|].
  destruct (configurar_tcp int strip lower rest1)
    as [porta_tcp rest2 | |] eqn:Hcfg; try done.
  destruct rest2 as [|[line| |] rest3]; try done.
  intros [= <- <- <-]. split; [|split; [done|]].
  - unfold exibir_menu_portas in Hmenu. case_decide; [done|].
    apply menu_loop_chosen in Hmenu
      as (before & s & n & x & _ & _ & _ & Hx & ->).
    exists x. split; [|done].
    rewrite <- (listar_portas_com_perm comports).
    by eapply list_elem_of_lookup_2.
  - unfold configurar_tcp in Hcfg.
    destruct rest1 as [|[answer| |] rest1]; try done.
    case_decide; [by eapply port_loop_range|].
    injection Hcfg as <- _. unfold TCP_PORT. lia.
Qed.

End Builtins.

(** *** Examples on a machine with two ports *)

Lemma menu_returns_a_listed_device_witness :
  ∃ before s n p,
    [Typed "abc"; Typed "7"; Typed "2"; Typed "s"] = before ++ Typed s :: [Typed "s"]
    ∧ decimal s = Some n ∧ (1 ≤ n ≤ Z.of_nat 2)%Z
    ∧ listar_portas_com [Port "COM3" (Some "Arduino"); Port "COM10" None]
        !! Z.to_nat (n - 1) = Some p
    ∧ p ∈ [Port "COM3" (Some "Arduino"); Port "COM10" None]
    ∧ "COM3" = device p.
Proof.
  apply (menu_returns_a_listed_device decimal
           [Port "COM3" (Some "Arduino"); Port "COM10" None]
           [Typed "abc"; Typed "7"; Typed "2"; Typed "s"] "COM3" [Typed "s"]).
  vm_compute. reflexivity.
Defined.



Lemma configurar_tcp_port_in_range_witness : (1024 ≤ 8080 ≤ 65535)%Z.
Proof.
  apply (configurar_tcp_port_in_range decimal id id
           [Typed "n"; Typed "80"; Typed "8080"] 8080 []).
  vm_compute. reflexivity.
Defined.

Lemma main_starts_on_listed_device_and_valid_port_witness :
  (∃ x, x ∈ [Port "COM3" (Some "Arduino"); Port "COM10" None]
        ∧ device x = "COM3")
  ∧ "COM3" ≠ "" ∧ (1024 ≤ 5558 ≤ 65535)%Z.
Proof.
  apply (main_starts_on_listed_device_and_valid_port decimal id id
           [Port "COM3" (Some "Arduino"); Port "COM10" None]
           [Typed "2"; Typed "s"; Typed ""] "COM3" 5558 []).
  vm_compute. reflexivity.
Defined.

End ConsoleFacts.
